(** * Qt_ModelView: the list-model adapters and their notification discipline

    A shallow embedding of [ContactModel] (ContactModel.h / ContactModel.cpp)
    and of [ToDoModel] (ToDoModel.h / models/ToDoModel.cpp).

    The C++ member functions operate on [this] and call into the
    [QAbstractListModel] base class.  They are embedded in a small monad
    that threads the object state, collects the ordered log of everything
    the member function does that another party could observe, and fails
    when a Qt container precondition is broken (undefined behaviour). *)

From Stdlib Require Import ZArith Lia.
From stdpp Require Import base option list gmap strings.

Local Open Scope Z_scope.

(** ** The parts of Qt the two classes rely on *)

Module Qt.

(** [Qt::UserRole], the first role number free for application use
    (qnamespace.h: [UserRole = 0x0100]). *)
Definition UserRole : Z := 256.

(** [int] is 32 bits wide on every platform Qt 6 supports. *)
Definition INT_MAX : Z := 2 ^ 31 - 1.

(** Conversion of a [qsizetype] (64 bits) to [int]: the value is reduced
    modulo [2^32] into the signed range. *)
Definition to_int (z : Z) : Z := (z + 2 ^ 31) mod 2 ^ 32 - 2 ^ 31.

(** [QModelIndex]: a row, a column and the model the index belongs to
    (only whether that pointer is null matters here). *)
Record QModelIndex : Type := {
  row : Z;
  column : Z;
  model : bool
}.

(** [QModelIndex()], the default-constructed index: the root. *)
Definition QModelIndex_root : QModelIndex :=
  {| row := -1; column := -1; model := false |}.

(** [QModelIndex::isValid]:
    [(r >= 0) && (c >= 0) && (m != nullptr)]. *)
Definition isValid (index : QModelIndex) : bool :=
  (0 <=? row index) && (0 <=? column index) && model index.

(** [QVariant], restricted to what [data] can return: the invalid
    variant [QVariant()] or a variant holding a [QString]. *)
Inductive QVariant : Type :=
| QVariant_invalid
| QVariant_QString (s : string).

(** What a class derived from [QAbstractListModel] tells its observers:
    the calls into the base class and the emission of its own
    [countChanged] signal. *)
Inductive Notification : Type :=
| BeginInsertRows (parent : QModelIndex) (first last : Z)
| EndInsertRows
| BeginRemoveRows (parent : QModelIndex) (first last : Z)
| EndRemoveRows
| BeginResetModel
| EndResetModel
| CountChanged.

End Qt.

(** ** [QList<T>] ([QVector] is an alias of it) *)

Module QList.
Section Ops.
Context {T : Type}.

(** [count()] / [size()], a [qsizetype]. *)
Definition count (l : list T) : Z := Z.of_nat (length l).

Definition isEmpty (l : list T) : bool :=
  match l with [] => true | _ :: _ => false end.

(** [at(i)]: [i] must be a valid position, anything else is undefined
    behaviour ([None]). *)
Definition at_ (l : list T) (i : Z) : option T :=
  if (i <? 0) then None else l !! Z.to_nat i.

Definition append (l : list T) (x : T) : list T := l ++ [x].

(** [removeAt(i)]: same precondition as [at]. *)
Definition removeAt (l : list T) (i : Z) : option (list T) :=
  if (0 <=? i) && (i <? count l) then Some (delete (Z.to_nat i) l)
  else None.

Definition clear (l : list T) : list T := [].
End Ops.
End QList.

(** ** Member functions as computations on the object *)

Module Method.
Section Monad.
(** [S] is the type of the object's member variables. *)
Context {S : Type}.

(** One entry of the log of a member function: a notification, with
    the object as a handler run synchronously inside that call reads
    it, or a write to the member variables, with their new value. *)
Inductive Event : Type :=
| Notify (n : Qt.Notification) (seen : S)
| Mutate (after : S).

(** A member function returning [A]: from the object on entry to
    [None] (undefined behaviour) or the result, the object on return
    and the log. *)
Definition M (A : Type) : Type := S -> option (A * S * list Event).

Definition ret {A} (a : A) : M A := fun s => Some (a, s, []).

Definition bind {A B} (m : M A) (k : A -> M B) : M B :=
  fun s =>
    match m s with
    | None => None
    | Some (a, s1, t1) =>
        match k a s1 with
        | None => None
        | Some (b, s2, t2) => Some (b, s2, t1 ++ t2)
        end
    end.

(** Reading the member variables. *)
Definition this : M S := fun s => Some (s, s, []).

(** Writing the member variables. *)
Definition assign (s' : S) : M unit := fun _ => Some (tt, s', [Mutate s']).

(** A call into the base class, or [emit]. *)
Definition notify (n : Qt.Notification) : M unit :=
  fun s => Some (tt, s, [Notify n s]).

(** A container operation whose precondition may fail. *)
Definition checked {A} (o : option A) : M A :=
  fun s => match o with Some a => Some (a, s, []) | None => None end.

(** The value a member function returns, when it returns. *)
Definition eval {A} (m : M A) (s : S) : option A :=
  match m s with Some (a, _, _) => Some a | None => None end.
End Monad.

Arguments Event : clear implicits.
Arguments M : clear implicits.
End Method.

(** stdpp's monad notations: [x ← m; k] and [m;; k]. *)
Global Instance M_ret {S} : MRet (Method.M S) := @Method.ret S.
Global Instance M_bind {S} : MBind (Method.M S) :=
  fun A B k m => Method.bind m k.

(** ** ContactModel *)

Module ContactModel.
Import Qt Method.

(** [struct Contact]. *)
Record Contact : Type := {
  name : string;
  phone : string;
  email : string
}.

(** The member variables of a [ContactModel] object. *)
Record state : Type := { m_contacts : list Contact }.

(** [enum Roles]. *)
Inductive Roles : Type := NameRole | PhoneRole | EmailRole.

(** The integer of each enumerator: [NameRole = Qt::UserRole + 1], each
    following one the next integer. *)
Definition Roles_value (r : Roles) : Z :=
  match r with
  | NameRole => UserRole + 1
  | PhoneRole => UserRole + 1 + 1
  | EmailRole => UserRole + 1 + 1 + 1
  end.

(** The constructor leaves [m_contacts] empty. *)
Definition ContactModel : state := {| m_contacts := [] |}.

Definition rowCount (parent : QModelIndex) : M state Z :=
  if isValid parent then mret 0
  else
    s ← this;
    mret (to_int (QList.count (m_contacts s))).

Definition data (index : QModelIndex) (role : Z) : M state QVariant :=
  s ← this;
  if negb (isValid index) || (QList.count (m_contacts s) <=? row index)
  then mret QVariant_invalid
  else
    contact ← checked (QList.at_ (m_contacts s) (row index));
    if role =? Roles_value NameRole then mret (QVariant_QString (name contact))
    else if role =? Roles_value PhoneRole then mret (QVariant_QString (phone contact))
    else if role =? Roles_value EmailRole then mret (QVariant_QString (email contact))
    else mret QVariant_invalid.

(** The [switch] of [data] as a function of the record it reads; the
    lemmas below state what [data] returns with it. *)
Definition Contact_field (role : Z) (contact : Contact) : QVariant :=
  if role =? Roles_value NameRole then QVariant_QString (name contact)
  else if role =? Roles_value PhoneRole then QVariant_QString (phone contact)
  else if role =? Roles_value EmailRole then QVariant_QString (email contact)
  else QVariant_invalid.

(** [QHash<int, QByteArray>]; [roles[k] = v] inserts or overwrites. *)
Definition roleNames : M state (gmap Z string) :=
  let roles : gmap Z string := ∅ in
  let roles := <[Roles_value NameRole := "name"%string]> roles in
  let roles := <[Roles_value PhoneRole := "phone"%string]> roles in
  let roles := <[Roles_value EmailRole := "email"%string]> roles in
  mret roles.

Definition addContact (name phone email : string) : M state unit :=
  s ← this;
  let newRow := to_int (QList.count (m_contacts s)) in
  notify (BeginInsertRows QModelIndex_root newRow newRow);;
  let newContact := Build_Contact name phone email in
  (s ← this; assign {| m_contacts := QList.append (m_contacts s) newContact |});;
  notify EndInsertRows;;
  notify CountChanged.

Definition removeContact (index : Z) : M state unit :=
  s ← this;
  if (index <? 0) || (QList.count (m_contacts s) <=? index) then mret tt
  else
    notify (BeginRemoveRows QModelIndex_root index index);;
    (s ← this;
     l ← checked (QList.removeAt (m_contacts s) index);
     assign {| m_contacts := l |});;
    notify EndRemoveRows;;
    notify CountChanged.

Definition clear : M state unit :=
  s ← this;
  if QList.isEmpty (m_contacts s) then mret tt
  else
    notify BeginResetModel;;
    (s ← this; assign {| m_contacts := QList.clear (m_contacts s) |});;
    notify EndResetModel;;
    notify CountChanged.

(** The three [Q_INVOKABLE] mutators, as the QML layer calls them. *)
Inductive Invocation : Type :=
| AddContact (name phone email : string)
| RemoveContact (index : Z)
| Clear.

Definition invoke (c : Invocation) : M state unit :=
  match c with
  | AddContact n p e => addContact n p e
  | RemoveContact i => removeContact i
  | Clear => clear
  end.

Fixpoint invoke_all (cs : list Invocation) : M state unit :=
  match cs with
  | [] => mret tt
  | c :: cs => invoke c;; invoke_all cs
  end.

End ContactModel.

(** ** ToDoModel *)

Module ToDoModel.
Import Qt Method.

(** Modelled from the spec: the task record, "{ done: boolean,
    description: text }".  ToDoModel.h declares no record type. *)
Record Task : Type := {
  done : bool;
  description : string
}.

(** Modelled from the spec: the "sequence of task records" the Todo
    adapter owns.  ToDoModel.h declares no member variable. *)
Record state : Type := { m_tasks : list Task }.

(** The anonymous [enum] of ToDoModel.h: [DoneRole = Qt::UserRole],
    [DescriptionRole] the next integer. *)
Definition DoneRole : Z := UserRole.
Definition DescriptionRole : Z := DoneRole + 1.

(** The constructor body is empty. *)
Definition ToDoModel : state := {| m_tasks := [] |}.

Definition roleNames : M state (gmap Z string) :=
  let names : gmap Z string := ∅ in
  let names := <[DoneRole := "done"%string]> names in
  let names := <[DescriptionRole := "description"%string]> names in
  mret names.

(** Modelled from the spec: [rowCount] is declared in ToDoModel.h and
    defined nowhere in the sources; "length() -> integer: returns
    current Sequence size. No side effects." *)
Definition rowCount (parent : QModelIndex) : M state Z :=
  s ← this;
  mret (QList.count (m_tasks s)).

End ToDoModel.

(** ** Sample data: the end-to-end scenario of the specification *)

Module Scenario.
Import Qt ContactModel.

Definition alice : Contact :=
  Build_Contact "Alice" "555-1234" "alice@example.com".
Definition bob : Contact :=
  Build_Contact "Bob" "555-5678" "bob@example.com".

Definition alice_bob : state := {| m_contacts := [alice; bob] |}.

(** The index a list view holds for row [r] of a model. *)
Definition at_row (r : Z) : QModelIndex :=
  {| row := r; column := 0; model := true |}.

(** The same index one row further down. *)
Definition below (index : QModelIndex) : QModelIndex :=
  {| row := row index + 1; column := column index; model := model index |}.
End Scenario.

(** ** The notification protocol, as an observer of the model meets it *)

Module Protocol.
Import Qt Method ContactModel.

(** The three kinds of structural change a list model announces. *)
Inductive Change : Type := Insert | Remove | Reset.

(** Where a mutator stands in the "CRITICAL SEQUENCE" the comments of
    ContactModel.cpp lay down: nothing announced; a change announced by
    its begin call; the data written; the end call made, with
    [countChanged] still to be emitted. *)
Inductive Phase : Type :=
| Stable
| Announced (c : Change)
| Written (c : Change)
| Finished.

(** One log entry moves the phase on, or breaks the sequence ([None]). *)
Definition step (p : Phase) (e : Event state) : option Phase :=
  match p, e with
  | Stable, Notify (BeginInsertRows _ _ _) _ => Some (Announced Insert)
  | Stable, Notify (BeginRemoveRows _ _ _) _ => Some (Announced Remove)
  | Stable, Notify BeginResetModel _ => Some (Announced Reset)
  | Announced c, Mutate _ => Some (Written c)
  | Written Insert, Notify EndInsertRows _ => Some Finished
  | Written Remove, Notify EndRemoveRows _ => Some Finished
  | Written Reset, Notify EndResetModel _ => Some Finished
  | Finished, Notify CountChanged _ => Some Stable
  | _, _ => None
  end.

Fixpoint steps (p : Phase) (tr : list (Event state)) : option Phase :=
  match tr with
  | [] => Some p
  | e :: tr =>
      match step p e with
      | Some p' => steps p' tr
      | None => None
      end
  end.

(** How many times a log emits [countChanged]. *)
Fixpoint countChanged_emitted (tr : list (Event state)) : nat :=
  match tr with
  | [] => 0%nat
  | Notify CountChanged _ :: tr => S (countChanged_emitted tr)
  | _ :: tr => countChanged_emitted tr
  end.

(** What a begin call must announce, measured on the Sequence as it is
    when the call is made: the root as parent and a single row, which is
    the first free position for an insertion and an occupied position
    for a removal. *)
Definition announces_rows (e : Event state) : Prop :=
  match e with
  | Notify (BeginInsertRows parent first last) seen =>
      isValid parent = false /\
      first = QList.count (m_contacts seen) /\ last = first
  | Notify (BeginRemoveRows parent first last) seen =>
      isValid parent = false /\
      0 <= first < QList.count (m_contacts seen) /\ last = first
  | _ => True
  end.

(** The row counter of a view: the rows it believes the model has, and
    the number of rows the last begin call announced.  An end call
    applies the announced rows; after a reset the view asks [rowCount]
    again. *)
Definition view_step (v : Z * Z) (e : Event state) : Z * Z :=
  match e with
  | Notify (BeginInsertRows _ first last) _ => (v.1, last - first + 1)
  | Notify (BeginRemoveRows _ first last) _ => (v.1, last - first + 1)
  | Notify EndInsertRows _ => (v.1 + v.2, 0)
  | Notify EndRemoveRows _ => (v.1 - v.2, 0)
  | Notify EndResetModel seen => (to_int (QList.count (m_contacts seen)), 0)
  | _ => v
  end.

Definition view_rows (rows : Z) (tr : list (Event state)) : Z :=
  (fold_left view_step tr (rows, 0)).1.

(** The records a sequence of calls hands to [addContact], in call
    order. *)
Fixpoint added (cs : list Invocation) : list Contact :=
  match cs with
  | [] => []
  | AddContact n p e :: cs => Build_Contact n p e :: added cs
  | _ :: cs => added cs
  end.

(** The calls that append the given records, one after the other. *)
Definition add_each (l : list Contact) : list Invocation :=
  map (fun c => AddContact (name c) (phone c) (email c)) l.

(** The member of [struct Contact] with the given identifier. *)
Definition Contact_member (key : string) (c : Contact) : option string :=
  if String.eqb key "name" then Some (name c)
  else if String.eqb key "phone" then Some (phone c)
  else if String.eqb key "email" then Some (email c)
  else None.

End Protocol.

(** ** Main.qml: the handlers that call the model *)

Module MainQml.
Import Qt Method ContactModel.

(** ECMAScript's WhiteSpace and LineTerminator characters among those a
    [string] holds (code units below U+0100): TAB, LF, VT, FF, CR, SP
    and NBSP. *)
Definition isWhiteSpace (c : Ascii.ascii) : bool :=
  let n := Ascii.N_of_ascii c in
  ((n =? 9) || (n =? 10) || (n =? 11) || (n =? 12) || (n =? 13)
   || (n =? 32) || (n =? 160))%N.

(** [String.prototype.trimStart]. *)
Fixpoint trimStart (s : string) : string :=
  match s with
  | EmptyString => EmptyString
  | String c s' => if isWhiteSpace c then trimStart s' else s
  end.

(** [String.prototype.trimEnd]. *)
Fixpoint trimEnd (s : string) : string :=
  match s with
  | EmptyString => EmptyString
  | String c s' =>
      match trimEnd s' with
      | EmptyString => if isWhiteSpace c then EmptyString
                       else String c EmptyString
      | t => String c t
      end
  end.

(** [String.prototype.trim]. *)
Definition trim (s : string) : string := trimEnd (trimStart s).

(** A string without any visible character. *)
Fixpoint blank (s : string) : bool :=
  match s with
  | EmptyString => true
  | String c s' => isWhiteSpace c && blank s'
  end.

(** The [text] of the three [TextField]s. *)
Record TextFields : Type := {
  nameField : string;
  phoneField : string;
  emailField : string
}.

(** [Component.onCompleted] of the [ContactModel] element. *)
Definition onCompleted : M state unit :=
  addContact "Alice Johnson" "555-1234" "alice@example.com";;
  addContact "Bob Smith" "555-5678" "bob@example.com";;
  addContact "Charlie Brown" "555-9012" "charlie@example.com".

(** [onClicked] of the "Add Contact" button; returns the text fields as
    the handler leaves them.  (The handler ends by moving the keyboard
    focus, which touches neither the model nor the texts.) *)
Definition addContact_onClicked (f : TextFields) : M state TextFields :=
  if negb (String.eqb (trim (nameField f)) "") then
    addContact (nameField f) (phoneField f) (emailField f);;
    mret {| nameField := ""; phoneField := ""; emailField := "" |}
  else mret f.

(** [onClicked] of the delete button of the delegate for row [index]. *)
Definition delete_onClicked (index : Z) : M state unit :=
  removeContact index.

(** [onClicked] of the "Clear All" button. *)
Definition clearAll_onClicked : M state unit := clear.

(** [onClicked] of the "Add Sample Data" button. *)
Definition addSampleData_onClicked : M state unit :=
  addContact "David Miller" "555-1111" "david@example.com";;
  addContact "Emma Wilson" "555-2222" "emma@example.com";;
  addContact "Frank Lee" "555-3333" "frank@example.com".

(** What the user can do: click one of the four buttons, "Add Contact"
    with whatever the text fields hold at that moment. *)
Inductive Click : Type :=
| AddContactClicked (typed : TextFields)
| DeleteClicked (index : Z)
| ClearAllClicked
| AddSampleDataClicked.

Definition click (c : Click) : M state unit :=
  match c with
  | AddContactClicked typed => addContact_onClicked typed;; mret tt
  | DeleteClicked index => delete_onClicked index
  | ClearAllClicked => clearAll_onClicked
  | AddSampleDataClicked => addSampleData_onClicked
  end.

Fixpoint clicks (cs : list Click) : M state unit :=
  match cs with
  | [] => mret tt
  | c :: cs => click c;; clicks cs
  end.

(** A run of the application: the model is constructed, completed, and
    the user clicks. *)
Definition session (cs : list Click) : M state unit :=
  onCompleted;; clicks cs.

End MainQml.

(** * Properties *)

Import Qt Method.

(** Unfolds the monad, leaving plain [match]es on options. *)
Ltac run :=
  unfold mbind, M_bind, mret, M_ret, bind, ret, this, assign, notify, checked,
    eval in *;
  cbn [fst snd app] in *.

(** ** Facts about [QList] and [int] *)

Section QListFacts.
Context {T : Type}.
Implicit Types (l : list T) (x : T) (i : Z).

Lemma count_nonneg l : 0 <= QList.count l.
Proof. unfold QList.count. lia. Qed.

Lemma count_append l x : QList.count (QList.append l x) = QList.count l + 1.
Proof. unfold QList.count, QList.append. rewrite length_app. simpl. lia. Qed.

Lemma at_in_range l i :
  0 <= i < QList.count l ->
  exists x, QList.at_ l i = Some x /\ l !! Z.to_nat i = Some x.
Proof.
  intros Hi. unfold QList.at_, QList.count in *.
  destruct (Z.ltb_spec i 0) as [?|_]; [lia|].
  destruct (lookup_lt_is_Some_2 l (Z.to_nat i)) as [x Hx]; [lia|].
  exists x. by rewrite Hx.
Qed.

Lemma removeAt_in_range l i :
  0 <= i < QList.count l ->
  QList.removeAt l i = Some (delete (Z.to_nat i) l) /\
  QList.count (delete (Z.to_nat i) l) = QList.count l - 1.
Proof.
  intros Hi. unfold QList.removeAt.
  destruct (Z.leb_spec 0 i); [|lia].
  destruct (Z.ltb_spec i (QList.count l)); [|lia].
  split; [done|].
  unfold QList.count in *. rewrite length_delete.
  - lia.
  - apply lookup_lt_is_Some_2. lia.
Qed.
End QListFacts.

Lemma to_int_fits z : - 2 ^ 31 <= z <= INT_MAX -> to_int z = z.
Proof.
  unfold to_int, INT_MAX. intros H.
  rewrite Z.mod_small; lia.
Qed.

(** ** ContactModel: the queries *)

Section ContactModelQueries.
Import ContactModel.
Implicit Types (s : state) (index parent : QModelIndex) (role i : Z)
  (c : Contact).

Lemma isValid_row_nonneg index : isValid index = true -> 0 <= row index.
Proof.
  unfold isValid. intros H.
  apply andb_prop in H as [H _]. apply andb_prop in H as [H _]. lia.
Qed.

Lemma rowCount_root s :
  rowCount QModelIndex_root s
  = Some (to_int (QList.count (m_contacts s)), s, []).
Proof. reflexivity. Qed.

Lemma data_no_value s index role :
  isValid index = false \/ QList.count (m_contacts s) <= row index ->
  data index role s = Some (QVariant_invalid, s, []).
Proof.
  intros H. unfold data. run.
  destruct (isValid index); simpl.
  - destruct H as [H|H]; [done|].
    destruct (Z.leb_spec (QList.count (m_contacts s)) (row index)); [done|lia].
  - done.
Qed.

Lemma data_stored s index role c :
  isValid index = true ->
  m_contacts s !! Z.to_nat (row index) = Some c ->
  data index role s = Some (Contact_field role c, s, []).
Proof.
  intros Hv Hc. unfold data. run. rewrite Hv. simpl.
  pose proof (isValid_row_nonneg _ Hv) as H0.
  apply lookup_lt_Some in Hc as Hlt.
  destruct (Z.leb_spec (QList.count (m_contacts s)) (row index)) as [Hge|_].
  { unfold QList.count in Hge. lia. }
  unfold QList.at_. destruct (Z.ltb_spec (row index) 0); [lia|].
  rewrite Hc. unfold Contact_field. cbn [Roles_value].
  destruct (role =? UserRole + 1); [done|].
  destruct (role =? UserRole + 1 + 1); [done|].
  by destruct (role =? UserRole + 1 + 1 + 1).
Qed.

(** [data] always returns, and touches nothing. *)
Lemma data_total s index role :
  exists v, data index role s = Some (v, s, []).
Proof.
  destruct (isValid index) eqn:Hv.
  - destruct (Z.le_gt_cases (QList.count (m_contacts s)) (row index)) as [H|H].
    + eexists. apply data_no_value. by right.
    + destruct (at_in_range (m_contacts s) (row index)) as (c & _ & Hc).
      { split; [by apply isValid_row_nonneg | lia]. }
      eexists. by apply data_stored.
  - eexists. apply data_no_value. by left.
Qed.

Lemma Contact_field_undeclared role c :
  (forall r : Roles, role <> Roles_value r) ->
  Contact_field role c = QVariant_invalid.
Proof.
  intros H. unfold Contact_field.
  pose proof (H NameRole). pose proof (H PhoneRole). pose proof (H EmailRole).
  repeat (case_match; try done); lia.
Qed.
End ContactModelQueries.

(** ** ContactModel: what each mutator does, step by step *)

Section ContactModelMutators.
Import ContactModel.
Implicit Types (s : state) (index : Z) (name phone email : string).

Lemma addContact_run s name phone email :
  let newRow := to_int (QList.count (m_contacts s)) in
  let s' := {| m_contacts := m_contacts s ++ [Build_Contact name phone email] |} in
  addContact name phone email s
  = Some (tt, s',
          [Notify (BeginInsertRows QModelIndex_root newRow newRow) s;
           Mutate s';
           Notify EndInsertRows s';
           Notify CountChanged s']).
Proof. reflexivity. Qed.

Lemma removeContact_out_of_range s index :
  index < 0 \/ QList.count (m_contacts s) <= index ->
  removeContact index s = Some (tt, s, []).
Proof.
  intros H. unfold removeContact. run.
  destruct (Z.ltb_spec index 0); simpl; [done|].
  destruct (Z.leb_spec (QList.count (m_contacts s)) index); [done|lia].
Qed.

Lemma removeContact_in_range s index :
  0 <= index < QList.count (m_contacts s) ->
  let s' := {| m_contacts := delete (Z.to_nat index) (m_contacts s) |} in
  removeContact index s
  = Some (tt, s',
          [Notify (BeginRemoveRows QModelIndex_root index index) s;
           Mutate s';
           Notify EndRemoveRows s';
           Notify CountChanged s']).
Proof.
  intros H. unfold removeContact. run.
  destruct (Z.ltb_spec index 0); [lia|].
  destruct (Z.leb_spec (QList.count (m_contacts s)) index); [lia|].
  simpl. destruct (removeAt_in_range (m_contacts s) index H) as [-> _].
  reflexivity.
Qed.

Lemma clear_empty s : m_contacts s = [] -> clear s = Some (tt, s, []).
Proof. intros H. unfold clear. run. by rewrite H. Qed.

Lemma clear_nonempty s :
  m_contacts s <> [] ->
  clear s
  = Some (tt, ContactModel,
          [Notify BeginResetModel s;
           Mutate ContactModel;
           Notify EndResetModel ContactModel;
           Notify CountChanged ContactModel]).
Proof.
  intros H. unfold clear. run.
  destruct (m_contacts s) eqn:E; [done|]. reflexivity.
Qed.

(** No mutator, on any object and with any argument, runs into
    undefined behaviour. *)
Lemma invoke_total s (c : Invocation) :
  exists s' tr, invoke c s = Some (tt, s', tr).
Proof.
  destruct c as [n p e|i|]; simpl.
  - rewrite addContact_run. eauto.
  - destruct (Z.lt_ge_cases i 0) as [H|H];
      [|destruct (Z.le_gt_cases (QList.count (m_contacts s)) i) as [H'|H']].
    + rewrite removeContact_out_of_range by lia. eauto.
    + rewrite removeContact_out_of_range by lia. eauto.
    + rewrite removeContact_in_range by lia. eauto.
  - destruct (m_contacts s) eqn:E.
    + rewrite clear_empty by done. eauto.
    + rewrite clear_nonempty by (rewrite E; done). eauto.
Qed.

Lemma invoke_all_total (cs : list Invocation) s :
  exists s' tr, invoke_all cs s = Some (tt, s', tr).
Proof.
  revert s. induction cs as [|c cs IH]; intros s; simpl.
  - by exists s, [].
  - destruct (invoke_total s c) as (s1 & t1 & H1).
    destruct (IH s1) as (s2 & t2 & H2).
    exists s2, (t1 ++ t2). run. by rewrite H1, H2.
Qed.
End ContactModelMutators.

(** ** ContactModel: reading after writing *)

Section ContactModelReads.
Import ContactModel Scenario.
Implicit Types (s : state) (index : QModelIndex) (role i : Z).

(** What [data] returns, in terms of the Sequence. *)
Lemma data_eval s index role :
  eval (data index role) s
  = Some (if isValid index
          then match m_contacts s !! Z.to_nat (row index) with
               | Some c => Contact_field role c
               | None => QVariant_invalid
               end
          else QVariant_invalid).
Proof.
  unfold eval. destruct (isValid index) eqn:Hv.
  - destruct (m_contacts s !! Z.to_nat (row index)) as [c|] eqn:Hc.
    + by rewrite (data_stored s index role c).
    + rewrite data_no_value; [done|]. right.
      apply lookup_ge_None_1 in Hc. apply isValid_row_nonneg in Hv.
      unfold QList.count. lia.
  - rewrite data_no_value; [done|]. by left.
Qed.

Lemma isValid_below index :
  0 <= row index -> isValid (below index) = isValid index.
Proof.
  intros H. unfold isValid, below. simpl.
  destruct (Z.leb_spec 0 (row index)); [|lia].
  destruct (Z.leb_spec 0 (row index + 1)); [done|lia].
Qed.

Lemma isValid_false_negative index : row index < 0 -> isValid index = false.
Proof.
  intros H. unfold isValid. destruct (Z.leb_spec 0 (row index)); [lia|done].
Qed.

End ContactModelReads.

(** ** The adapter contract of ContactModel *)

Section ContactModelContract.
Import ContactModel Scenario.
Implicit Types (s : state) (index parent : QModelIndex) (role i : Z)
  (name phone email : string).

(** C1. On every object, [addContact name phone email] returns, the
    Sequence is one record longer, [data] at the last position returns
    [name], [phone] and [email] for the three roles, and every position
    that held a record before answers every [data] query as before.
    Where the new size still fits an [int], [rowCount] of the root goes
    up by exactly one as well. *)
Theorem addContact_appends s name phone email :
  exists s' tr,
    addContact name phone email s = Some (tt, s', tr) /\
    QList.count (m_contacts s') = QList.count (m_contacts s) + 1 /\
    (forall index,
        isValid index = true ->
        row index = QList.count (m_contacts s') - 1 ->
        eval (data index (Roles_value NameRole)) s'
        = Some (QVariant_QString name) /\
        eval (data index (Roles_value PhoneRole)) s'
        = Some (QVariant_QString phone) /\
        eval (data index (Roles_value EmailRole)) s'
        = Some (QVariant_QString email)) /\
    (forall (j : nat) c,
        m_contacts s !! j = Some c -> m_contacts s' !! j = Some c) /\
    (forall index role,
        row index < QList.count (m_contacts s) ->
        eval (data index role) s' = eval (data index role) s) /\
    (QList.count (m_contacts s) < INT_MAX ->
     exists n,
       eval (rowCount QModelIndex_root) s = Some n /\
       eval (rowCount QModelIndex_root) s' = Some (n + 1)).
Proof.
  pose proof (count_nonneg (m_contacts s)) as Hnn.
  eexists _, _. split; [apply addContact_run|]. cbn [m_contacts].
  assert (Hcount : QList.count (m_contacts s ++ [Build_Contact name phone email])
                   = QList.count (m_contacts s) + 1)
    by apply count_append.
  split; [exact Hcount|].
  split; [|split; [|split]].
  - intros index Hv Hrow. rewrite !data_eval, Hv. cbn [m_contacts].
    rewrite list_lookup_middle; [done|].
    rewrite Hrow, Hcount. unfold QList.count. lia.
  - intros j c Hj. rewrite lookup_app_l; [done|]. by eapply lookup_lt_Some.
  - intros index role Hlt. rewrite !data_eval. cbn [m_contacts].
    destruct (isValid index) eqn:Hv; [|done].
    apply isValid_row_nonneg in Hv.
    rewrite lookup_app_l; [done|]. unfold QList.count in Hlt. lia.
  - intros Hfit. exists (QList.count (m_contacts s)). unfold eval.
    rewrite !rowCount_root. cbn [m_contacts]. rewrite Hcount.
    rewrite !to_int_fits; [done|unfold INT_MAX in *; lia..].
Qed.

Lemma addContact_appends_witness :
  exists s' tr,
    addContact "Bob" "555-5678" "bob@example.com" {| m_contacts := [alice] |}
    = Some (tt, s', tr) /\
    eval (data (at_row 1) (Roles_value NameRole)) s'
    = Some (QVariant_QString "Bob") /\
    m_contacts s' !! 0%nat = Some alice /\
    eval (rowCount QModelIndex_root) s' = Some 2.
Proof.
  destruct (addContact_appends {| m_contacts := [alice] |}
              "Bob" "555-5678" "bob@example.com")
    as (s' & tr & Hrun & Hcount & Hlast & Hkept & _ & Hrows).
  exists s', tr. split; [exact Hrun|]. split; [|split].
  - apply (Hlast (at_row 1)); [reflexivity|]. rewrite Hcount. reflexivity.
  - apply Hkept. reflexivity.
  - destruct Hrows as (n & Hn & Hn'); [reflexivity|].
    injection Hn as <-. exact Hn'.
Defined.

(** C2. The log of one [addContact] is exactly: [beginInsertRows] for
    the root with first = last = N, the pre-call row count, issued while
    the Sequence is still the old one; the write that appends the
    record; [endInsertRows]; [countChanged].  Both later notifications
    are issued on the final Sequence, so a handler sees the old Sequence
    or the final one and nothing in between. *)
Theorem addContact_trace s name phone email :
  exists N s',
    eval (rowCount QModelIndex_root) s = Some N /\
    s' = {| m_contacts :=
              QList.append (m_contacts s) (Build_Contact name phone email) |} /\
    addContact name phone email s
    = Some (tt, s',
            [Notify (BeginInsertRows QModelIndex_root N N) s;
             Mutate s';
             Notify EndInsertRows s';
             Notify CountChanged s']) /\
    (QList.count (m_contacts s) <= INT_MAX -> N = QList.count (m_contacts s)).
Proof.
  eexists _, _. split; [by unfold eval; rewrite rowCount_root|].
  split; [reflexivity|]. split; [apply addContact_run|].
  intros Hfit. pose proof (count_nonneg (m_contacts s)).
  apply to_int_fits. lia.
Qed.

(** C3. For a position [i] inside the Sequence, [removeContact i]
    returns, the Sequence is one record shorter, every position from
    [i] on now holds the record that was one position further down,
    and the positions before [i] are untouched; [data] answers
    accordingly.  Where the size fits an [int], [rowCount] of the root
    goes down by exactly one. *)
Theorem removeContact_shifts s i :
  0 <= i < QList.count (m_contacts s) ->
  exists s' tr,
    removeContact i s = Some (tt, s', tr) /\
    QList.count (m_contacts s') = QList.count (m_contacts s) - 1 /\
    (forall j : nat,
        (Z.to_nat i <= j)%nat -> m_contacts s' !! j = m_contacts s !! S j) /\
    (forall j : nat,
        (j < Z.to_nat i)%nat -> m_contacts s' !! j = m_contacts s !! j) /\
    (forall index role,
        i <= row index ->
        eval (data index role) s' = eval (data (below index) role) s) /\
    (forall index role,
        row index < i ->
        eval (data index role) s' = eval (data index role) s) /\
    (QList.count (m_contacts s) <= INT_MAX ->
     exists n,
       eval (rowCount QModelIndex_root) s = Some n /\
       eval (rowCount QModelIndex_root) s' = Some (n - 1)).
Proof.
  intros Hi. eexists _, _. split; [by apply removeContact_in_range|].
  cbn [m_contacts].
  destruct (removeAt_in_range (m_contacts s) i Hi) as [_ Hcount].
  split; [exact Hcount|]. repeat split.
  - intros j Hj. by apply list_lookup_delete_ge.
  - intros j Hj. by apply list_lookup_delete_lt.
  - intros index role Hle. rewrite !data_eval. cbn [m_contacts].
    rewrite isValid_below by lia.
    destruct (isValid index); [|done].
    rewrite list_lookup_delete_ge by lia.
    unfold below; cbn [row].
    by replace (Z.to_nat (row index + 1)) with (S (Z.to_nat (row index)))
      by lia.
  - intros index role Hlt. rewrite !data_eval. cbn [m_contacts].
    destruct (isValid index) eqn:Hv; [|done].
    apply isValid_row_nonneg in Hv.
    by rewrite list_lookup_delete_lt by lia.
  - intros Hfit. exists (QList.count (m_contacts s)). unfold eval.
    rewrite !rowCount_root. cbn [m_contacts]. rewrite Hcount.
    rewrite !to_int_fits; [done|unfold INT_MAX in *; lia..].
Qed.

Lemma removeContact_shifts_witness :
  exists s' tr,
    removeContact 0 alice_bob = Some (tt, s', tr) /\
    QList.count (m_contacts s') = 1 /\
    m_contacts s' !! 0%nat = Some bob.
Proof.
  destruct (removeContact_shifts alice_bob 0) as (s' & tr & H & Hc & Hs & _).
  - vm_compute. split; [discriminate|reflexivity].
  - exists s', tr. split; [exact H|]. split; [exact Hc|].
    exact (Hs 0%nat (le_n 0)).
Defined.

(** C4. For a position outside the Sequence, [removeContact] returns
    without touching the object and with an empty log: no
    [beginRemoveRows], no [endRemoveRows], no [countChanged]. *)
Theorem removeContact_out_of_range_noop s i :
  i < 0 \/ QList.count (m_contacts s) <= i ->
  removeContact i s = Some (tt, s, []).
Proof. apply removeContact_out_of_range. Qed.

Lemma removeContact_out_of_range_noop_witness :
  removeContact 2 alice_bob = Some (tt, alice_bob, []) /\
  removeContact (-1) alice_bob = Some (tt, alice_bob, []).
Proof.
  split.
  - apply (removeContact_out_of_range_noop alice_bob 2).
    right. vm_compute. discriminate.
  - apply (removeContact_out_of_range_noop alice_bob (-1)).
    left. reflexivity.
Defined.

(** C5. [data] returns on every object, index and role, leaves the
    object as it was and logs nothing (it never reads outside the
    Sequence); the value is the invalid [QVariant] whenever the row is
    outside the Sequence, whatever the role, and whenever the role is
    none of the enumerators of [Roles]. *)
Theorem data_fails_softly s index role :
  exists v,
    data index role s = Some (v, s, []) /\
    (row index < 0 \/ QList.count (m_contacts s) <= row index ->
     v = QVariant_invalid) /\
    ((forall r : Roles, role <> Roles_value r) -> v = QVariant_invalid).
Proof.
  destruct (data_total s index role) as [v Hv]. exists v.
  split; [exact Hv|].
  assert (He : eval (data index role) s = Some v) by (unfold eval; by rewrite Hv).
  rewrite data_eval in He. split.
  - intros [Hneg|Hge].
    + rewrite isValid_false_negative in He by done. congruence.
    + rewrite data_no_value in Hv by (by right). congruence.
  - intros Hrole. destruct (isValid index); [|congruence].
    destruct (m_contacts s !! Z.to_nat (row index)); [|congruence].
    rewrite Contact_field_undeclared in He by done. congruence.
Qed.

Lemma data_fails_softly_witness :
  data (at_row 2) (Roles_value NameRole) alice_bob
  = Some (QVariant_invalid, alice_bob, []) /\
  data (at_row 0) 0 alice_bob = Some (QVariant_invalid, alice_bob, []).
Proof.
  split.
  - destruct (data_fails_softly alice_bob (at_row 2) (Roles_value NameRole))
      as (v & Hrun & Hrange & _).
    rewrite Hrun, Hrange; [reflexivity|].
    right. vm_compute. discriminate.
  - destruct (data_fails_softly alice_bob (at_row 0) 0)
      as (v & Hrun & _ & Hrole).
    rewrite Hrun, Hrole; [reflexivity|].
    intros []; discriminate.
Defined.

(** C6. [clear] on a non-empty Sequence empties it (the row count of
    the root is then 0) and logs exactly [beginResetModel] on the old
    Sequence, the write, [endResetModel], [countChanged]; [clear] on an
    empty Sequence returns with the object untouched and an empty log.
    Hence the second of two consecutive [clear] calls does nothing. *)
Theorem clear_resets_once s :
  (m_contacts s <> [] ->
   clear s
   = Some (tt, ContactModel,
           [Notify BeginResetModel s;
            Mutate ContactModel;
            Notify EndResetModel ContactModel;
            Notify CountChanged ContactModel]) /\
   QList.count (m_contacts ContactModel) = 0 /\
   eval (rowCount QModelIndex_root) ContactModel = Some 0) /\
  (m_contacts s = [] -> clear s = Some (tt, s, [])) /\
  (exists s1 tr1,
      clear s = Some (tt, s1, tr1) /\
      m_contacts s1 = [] /\
      clear s1 = Some (tt, s1, [])).
Proof.
  split; [|split].
  - intros Hne. by rewrite clear_nonempty.
  - apply clear_empty.
  - destruct (m_contacts s) eqn:E.
    + exists s, []. by rewrite clear_empty.
    + eexists _, _. rewrite clear_nonempty by (by rewrite E).
      split; [reflexivity|]. split; [reflexivity|]. by apply clear_empty.
Qed.

Lemma clear_resets_once_witness :
  clear alice_bob
  = Some (tt, ContactModel,
          [Notify BeginResetModel alice_bob;
           Mutate ContactModel;
           Notify EndResetModel ContactModel;
           Notify CountChanged ContactModel]) /\
  clear ContactModel = Some (tt, ContactModel, []).
Proof.
  split.
  - destruct (clear_resets_once alice_bob) as [Hne _].
    apply Hne. discriminate.
  - destruct (clear_resets_once ContactModel) as (_ & He & _).
    apply He. reflexivity.
Defined.

(** C7. [rowCount] and [data] return on every object and for every
    argument, hand the object back exactly as they received it, and
    their log is empty. *)
Theorem queries_are_pure s parent index role :
  (exists n, rowCount parent s = Some (n, s, [])) /\
  (exists v, data index role s = Some (v, s, [])).
Proof.
  split; [|apply data_total].
  unfold rowCount. destruct (isValid parent); eexists; reflexivity.
Qed.

(** C8. [roleNames] returns one and the same table on every object, so
    in particular after any sequence of [addContact], [removeContact]
    and [clear] calls on a freshly constructed model; the table holds
    exactly the pairs NameRole -> "name", PhoneRole -> "phone" and
    EmailRole -> "email", one for every enumerator of [Roles]. *)
Theorem roleNames_fixed :
  exists table : gmap Z string,
    (forall s, roleNames s = Some (table, s, [])) /\
    (forall cs, exists s' tr,
        invoke_all cs ContactModel = Some (tt, s', tr) /\
        eval roleNames s' = Some table) /\
    (forall k v,
        table !! k = Some v <->
        (k = Roles_value NameRole /\ v = "name"%string) \/
        (k = Roles_value PhoneRole /\ v = "phone"%string) \/
        (k = Roles_value EmailRole /\ v = "email"%string)) /\
    (forall r : Roles, is_Some (table !! Roles_value r)) /\
    size table = 3%nat.
Proof.
  eexists. split; [intros s; reflexivity|]. split; [|split; [|split]].
  - intros cs. destruct (invoke_all_total cs ContactModel) as (s' & tr & H).
    by exists s', tr.
  - intros k v. rewrite !lookup_insert_Some, lookup_empty.
    cbn [Roles_value]. unfold UserRole. split.
    + intros [[<- <-]|[? [[<- <-]|[? [[<- <-]|[_ [=]]]]]]]; auto.
    + intros [[-> ->]|[[-> ->]|[-> ->]]]; auto 10.
  - intros []; eexists; reflexivity.
  - reflexivity.
Qed.

(** C10. [rowCount] answers 0 for every valid parent index, however
    many records the Sequence holds; for an invalid parent (the root)
    it answers the size of the Sequence, as long as that size fits the
    [int] it returns. *)
Theorem rowCount_root_only s parent :
  (isValid parent = true -> eval (rowCount parent) s = Some 0) /\
  (isValid parent = false ->
   QList.count (m_contacts s) <= INT_MAX ->
   eval (rowCount parent) s = Some (QList.count (m_contacts s))).
Proof.
  unfold eval, rowCount. split; intros ->; [done|].
  intros Hfit. run. pose proof (count_nonneg (m_contacts s)).
  rewrite to_int_fits; [done|lia].
Qed.

Lemma rowCount_root_only_witness :
  eval (rowCount (at_row 0)) alice_bob = Some 0 /\
  eval (rowCount QModelIndex_root) alice_bob = Some 2.
Proof.
  split.
  - destruct (rowCount_root_only alice_bob (at_row 0)) as [Hv _].
    apply Hv. reflexivity.
  - destruct (rowCount_root_only alice_bob QModelIndex_root) as [_ Hr].
    apply Hr; [reflexivity|]. vm_compute. discriminate.
Defined.
End ContactModelContract.

(** ** The adapter contract of ToDoModel *)

Section ToDoModelContract.
Import ToDoModel.

(** C9. [ToDoModel::roleNames] returns, on every object and without
    touching it, the table holding exactly DoneRole -> "done" and
    DescriptionRole -> "description"; the row count query returns the
    size of the Sequence, again without touching the object. *)
Theorem ToDoModel_read_access :
  exists table : gmap Z string,
    (forall s, roleNames s = Some (table, s, [])) /\
    (forall k v,
        table !! k = Some v <->
        (k = DoneRole /\ v = "done"%string) \/
        (k = DescriptionRole /\ v = "description"%string)) /\
    size table = 2%nat /\
    (forall s parent,
        rowCount parent s = Some (QList.count (m_tasks s), s, [])).
Proof.
  eexists. split; [intros s; reflexivity|]. split; [|split].
  - intros k v. rewrite !lookup_insert_Some, lookup_empty.
    unfold DescriptionRole, DoneRole, UserRole. split.
    + intros [[<- <-]|[? [[<- <-]|[_ [=]]]]]; auto.
    + intros [[-> ->]|[-> ->]]; auto.
  - reflexivity.
  - reflexivity.
Qed.
End ToDoModelContract.

(** ** The end-to-end scenario of the specification, run *)

Section EndToEnd.
Import ContactModel Scenario.

Example scenario_two_appends :
  invoke_all
    [AddContact "Alice" "555-1234" "alice@example.com";
     AddContact "Bob" "555-5678" "bob@example.com"] ContactModel
  = Some (tt, alice_bob,
          [Notify (BeginInsertRows QModelIndex_root 0 0) ContactModel;
           Mutate {| m_contacts := [alice] |};
           Notify EndInsertRows {| m_contacts := [alice] |};
           Notify CountChanged {| m_contacts := [alice] |};
           Notify (BeginInsertRows QModelIndex_root 1 1)
             {| m_contacts := [alice] |};
           Mutate alice_bob;
           Notify EndInsertRows alice_bob;
           Notify CountChanged alice_bob]).
Proof. reflexivity. Qed.

Example scenario_reads :
  eval (rowCount QModelIndex_root) alice_bob = Some 2 /\
  eval (data (at_row 0) (Roles_value NameRole)) alice_bob
  = Some (QVariant_QString "Alice") /\
  eval (data (at_row 1) (Roles_value PhoneRole)) alice_bob
  = Some (QVariant_QString "555-5678") /\
  eval (data (at_row 2) (Roles_value NameRole)) alice_bob
  = Some QVariant_invalid /\
  eval (data (at_row 0) 0) alice_bob = Some QVariant_invalid /\
  eval (rowCount (at_row 0)) alice_bob = Some 0.
Proof. repeat split; reflexivity. Qed.

Example scenario_remove_then_clear :
  invoke_all [RemoveContact 0] alice_bob
  = Some (tt, {| m_contacts := [bob] |},
          [Notify (BeginRemoveRows QModelIndex_root 0 0) alice_bob;
           Mutate {| m_contacts := [bob] |};
           Notify EndRemoveRows {| m_contacts := [bob] |};
           Notify CountChanged {| m_contacts := [bob] |}]) /\
  eval (data (at_row 0) (Roles_value NameRole)) {| m_contacts := [bob] |}
  = Some (QVariant_QString "Bob") /\
  invoke_all [Clear; Clear] {| m_contacts := [bob] |}
  = Some (tt, ContactModel,
          [Notify BeginResetModel {| m_contacts := [bob] |};
           Mutate ContactModel;
           Notify EndResetModel ContactModel;
           Notify CountChanged ContactModel]) /\
  eval (data (at_row 0) (Roles_value NameRole)) ContactModel
  = Some QVariant_invalid.
Proof. repeat split; reflexivity. Qed.

(** The [int] returned by [rowCount] wraps where the size does not fit. *)
Example to_int_wraps : to_int (INT_MAX + 1) = - 2 ^ 31.
Proof. reflexivity. Qed.
End EndToEnd.

(** * Further properties of ContactModel *)

(** ** Sequences of calls *)

Section CallSequences.
Import ContactModel Protocol.
Implicit Types (s : state) (c : Invocation) (cs : list Invocation)
  (tr : list (Event state)).

(** The five ways a call to a mutator can go. *)
Ltac invoke_cases c s :=
  let i := fresh "i" in
  let E := fresh "E" in
  destruct c as [?n ?p ?e|i|]; cbn [invoke];
  [ rewrite addContact_run
  | destruct (Z.lt_ge_cases i 0);
    [ rewrite removeContact_out_of_range by lia
    | destruct (Z.le_gt_cases (QList.count (m_contacts s)) i);
      [ rewrite removeContact_out_of_range by lia
      | rewrite removeContact_in_range by lia ] ]
  | destruct (decide (m_contacts s = [])) as [E|E];
    [ rewrite clear_empty by done
    | rewrite clear_nonempty by done ] ].

Lemma invoke_all_cons c cs s s1 t1 :
  invoke c s = Some (tt, s1, t1) ->
  invoke_all (c :: cs) s
  = match invoke_all cs s1 with
    | Some (u, s', t2) => Some (u, s', t1 ++ t2)
    | None => None
    end.
Proof. intros H. cbn [invoke_all]. run. by rewrite H. Qed.

Lemma state_eta s : {| m_contacts := m_contacts s |} = s.
Proof. by destruct s. Qed.

Lemma steps_app p tr1 tr2 :
  steps p (tr1 ++ tr2)
  = match steps p tr1 with Some p' => steps p' tr2 | None => None end.
Proof.
  revert p. induction tr1 as [|e tr1 IH]; intros p; simpl; [done|].
  destruct (step p e); [apply IH|done].
Qed.

Lemma countChanged_emitted_app tr1 tr2 :
  countChanged_emitted (tr1 ++ tr2)
  = (countChanged_emitted tr1 + countChanged_emitted tr2)%nat.
Proof.
  induction tr1 as [|[[]|] tr1 IH]; simpl; try done. by rewrite IH.
Qed.

Lemma changed_and_notified s s' tr :
  QList.count (m_contacts s') <> QList.count (m_contacts s) ->
  tr <> [] ->
  countChanged_emitted tr = 1%nat ->
  (tr = [] <-> s' = s) /\
  (s' = s <-> QList.count (m_contacts s') = QList.count (m_contacts s)) /\
  countChanged_emitted tr
  = (if decide (QList.count (m_contacts s') = QList.count (m_contacts s))
     then 0 else 1)%nat.
Proof.
  intros Hc Htr Hn. rewrite decide_False by done.
  split; [|split; [|done]]; split; try done; intros ->; done.
Qed.

Lemma unchanged_and_silent s :
  (@nil (Event state) = [] <-> s = s) /\
  (s = s <-> QList.count (m_contacts s) = QList.count (m_contacts s)) /\
  countChanged_emitted []
  = (if decide (QList.count (m_contacts s) = QList.count (m_contacts s))
     then 0 else 1)%nat.
Proof. by rewrite decide_True. Qed.

(** X1. A mutator call notifies exactly when it changes the Sequence:
    for each of [addContact], [removeContact] and [clear], on every
    object, the log is empty if and only if the object is returned
    unchanged, the object is unchanged if and only if its size is, and
    [countChanged] is emitted once when the size changed and not at all
    otherwise. *)
Theorem notifies_iff_changed c s :
  exists s' tr,
    invoke c s = Some (tt, s', tr) /\
    (tr = [] <-> s' = s) /\
    (s' = s <-> QList.count (m_contacts s') = QList.count (m_contacts s)) /\
    countChanged_emitted tr
    = (if decide (QList.count (m_contacts s') = QList.count (m_contacts s))
       then 0 else 1)%nat.
Proof.
  invoke_cases c s; eexists _, _; (split; [reflexivity|]);
    try apply unchanged_and_silent;
    (apply changed_and_notified; [cbn [m_contacts]|done|reflexivity]).
  - pose proof (count_append (m_contacts s) (Build_Contact n p e)) as Hc.
    unfold QList.append in Hc. lia.
  - destruct (removeAt_in_range (m_contacts s) i) as [_ Hc]; lia.
  - by destruct (m_contacts s).
Qed.

Lemma invoke_steps c s :
  exists s' tr, invoke c s = Some (tt, s', tr) /\ steps Stable tr = Some Stable.
Proof. invoke_cases c s; eexists _, _; (split; reflexivity). Qed.

(** X2. Whatever calls are made on whatever object, in whatever order,
    the log as a whole follows the critical sequence: each change is
    announced by its begin call, then written, then closed by the
    matching end call, then followed by [countChanged], and nothing is
    written or emitted outside such a group. *)
Theorem log_follows_critical_sequence cs s :
  exists s' tr,
    invoke_all cs s = Some (tt, s', tr) /\
    steps Stable tr = Some Stable /\
    (length tr = 4 * countChanged_emitted tr)%nat.
Proof.
  revert s. induction cs as [|c cs IH]; intros s.
  - by exists s, [].
  - assert (exists s1 t1, invoke c s = Some (tt, s1, t1) /\
              steps Stable t1 = Some Stable /\
              (length t1 = 4 * countChanged_emitted t1)%nat)
      as (s1 & t1 & H1 & Hp1 & Hl1)
      by (invoke_cases c s; eexists _, _; repeat split; reflexivity).
    destruct (IH s1) as (s' & t2 & H2 & Hp2 & Hl2).
    exists s', (t1 ++ t2). rewrite (invoke_all_cons _ _ _ _ _ H1), H2.
    split; [done|]. split.
    + by rewrite steps_app, Hp1.
    + rewrite length_app, countChanged_emitted_app. lia.
Qed.

Lemma invoke_announces c s :
  QList.count (m_contacts s) <= INT_MAX ->
  exists s' tr,
    invoke c s = Some (tt, s', tr) /\
    Forall announces_rows tr /\
    QList.count (m_contacts s') <= QList.count (m_contacts s) + 1.
Proof.
  intros Hfit. pose proof (count_nonneg (m_contacts s)) as Hnn.
  invoke_cases c s; eexists _, _; (split; [reflexivity|]); cbn [m_contacts].
  - pose proof (count_append (m_contacts s) (Build_Contact n p e)) as Hc.
    unfold QList.append in Hc. split; [|lia].
    repeat constructor. simpl. by rewrite to_int_fits by lia.
  - split; [constructor|lia].
  - split; [constructor|lia].
  - destruct (removeAt_in_range (m_contacts s) i) as [_ Hc]; [lia|].
    split; [|lia]. repeat constructor; simpl; lia.
  - split; [constructor|lia].
  - split; [repeat constructor|]. unfold ContactModel, QList.count. simpl. lia.
Qed.

(** X3. As long as the Sequence stays within the [int] range, every
    begin call in the log of any sequence of calls announces rows that
    match the Sequence at that moment: [beginInsertRows] the root and the
    single row equal to the current size, [beginRemoveRows] the root and
    a single row that currently exists. *)
Theorem begin_calls_announce_actual_rows cs s :
  QList.count (m_contacts s) + Z.of_nat (length cs) <= INT_MAX ->
  exists s' tr,
    invoke_all cs s = Some (tt, s', tr) /\
    Forall announces_rows tr.
Proof.
  revert s. induction cs as [|c cs IH]; intros s Hfit.
  - by exists s, [].
  - cbn [length] in Hfit.
    destruct (invoke_announces c s) as (s1 & t1 & H1 & Ha1 & Hc1); [lia|].
    destruct (IH s1) as (s' & t2 & H2 & Ha2); [lia|].
    exists s', (t1 ++ t2). rewrite (invoke_all_cons _ _ _ _ _ H1), H2.
    split; [done|]. by apply Forall_app.
Qed.

Lemma begin_calls_announce_actual_rows_witness :
  exists s' tr,
    invoke_all [AddContact "Carol" "555-9012" "carol@example.com";
                RemoveContact 1; Clear] Scenario.alice_bob
    = Some (tt, s', tr) /\
    Forall announces_rows tr.
Proof.
  apply (begin_calls_announce_actual_rows
           [AddContact "Carol" "555-9012" "carol@example.com";
            RemoveContact 1; Clear] Scenario.alice_bob).
  vm_compute. discriminate.
Defined.

Lemma invoke_view_rows c s :
  exists s' tr,
    invoke c s = Some (tt, s', tr) /\
    forall span,
      fold_left view_step tr (QList.count (m_contacts s), span)
      = (QList.count (m_contacts s'), if tr is [] then span else 0).
Proof.
  invoke_cases c s; eexists _, _; (split; [reflexivity|]); intros span;
    cbn [fold_left view_step fst snd m_contacts]; try done.
  - f_equal. pose proof (count_append (m_contacts s) (Build_Contact n p e)) as Hc.
    unfold QList.append in Hc. lia.
  - f_equal. destruct (removeAt_in_range (m_contacts s) i) as [_ Hc]; lia.
Qed.

(** X4. A view that starts from the size of the Sequence, adds the
    announced rows at every [endInsertRows], subtracts them at every
    [endRemoveRows] and asks [rowCount] again after [endResetModel],
    holds the size of the Sequence after any sequence of calls. *)
Theorem view_rows_in_sync cs s :
  exists s' tr,
    invoke_all cs s = Some (tt, s', tr) /\
    view_rows (QList.count (m_contacts s)) tr = QList.count (m_contacts s').
Proof.
  unfold view_rows. generalize 0 as span. revert s.
  induction cs as [|c cs IH]; intros s span.
  - by exists s, [].
  - destruct (invoke_view_rows c s) as (s1 & t1 & H1 & Hv1).
    destruct (IH s1 (if t1 is [] then span else 0)) as (s' & t2 & H2 & Hv2).
    exists s', (t1 ++ t2). rewrite (invoke_all_cons _ _ _ _ _ H1), H2.
    split; [done|]. by rewrite fold_left_app, Hv1.
Qed.

(** X5. Calls to [addContact] keep the order of the calls: appending
    the records of a list one after the other leaves the Sequence equal
    to the old Sequence followed by that list, with one group of four
    log entries per record. *)
Theorem addContact_keeps_call_order (l : list Contact) s :
  exists tr,
    invoke_all (add_each l) s
    = Some (tt, {| m_contacts := m_contacts s ++ l |}, tr) /\
    length tr = (4 * length l)%nat.
Proof.
  revert s. induction l as [|c l IH]; intros s.
  - exists []. cbn. by rewrite app_nil_r, state_eta.
  - destruct (IH {| m_contacts := m_contacts s ++ [c] |}) as (t2 & H2 & Hl2).
    eexists. cbn [add_each map].
    erewrite invoke_all_cons; [|cbn [invoke]; apply addContact_run].
    destruct c as [n p e]. cbn [name phone email].
    unfold add_each in H2. rewrite H2. cbn [m_contacts].
    rewrite <- app_assoc. split; [reflexivity|].
    cbn [length app]. lia.
Qed.

(** X6. Removing the row that [addContact] has just inserted undoes the
    insertion: on an object whose size fits an [int], [addContact]
    followed by [removeContact] of the row count returned before the
    insertion gives back the very same object. *)
Theorem removeContact_undoes_addContact s name phone email :
  QList.count (m_contacts s) <= INT_MAX ->
  exists N tr,
    eval (rowCount QModelIndex_root) s = Some N /\
    invoke_all [AddContact name phone email; RemoveContact N] s
    = Some (tt, s, tr) /\
    countChanged_emitted tr = 2%nat.
Proof.
  intros Hfit. pose proof (count_nonneg (m_contacts s)) as Hnn.
  exists (QList.count (m_contacts s)). eexists. split.
  { unfold eval. rewrite rowCount_root. by rewrite to_int_fits by lia. }
  erewrite invoke_all_cons; [|cbn [invoke]; apply addContact_run].
  erewrite invoke_all_cons.
  2:{ cbn [invoke]. apply removeContact_in_range. cbn [m_contacts].
      fold (QList.append (m_contacts s) (Build_Contact name phone email)).
      rewrite count_append. lia. }
  cbn [invoke_all m_contacts]. unfold QList.count at 1.
  rewrite Nat2Z.id.
  replace (delete (length (m_contacts s))
             (m_contacts s ++ [Build_Contact name phone email]))
    with (m_contacts s) by (by rewrite delete_middle, app_nil_r).
  rewrite state_eta. split; reflexivity.
Qed.

Lemma removeContact_undoes_addContact_witness :
  exists tr,
    invoke_all [AddContact "Carol" "555-9012" "carol@example.com";
                RemoveContact 2] Scenario.alice_bob
    = Some (tt, Scenario.alice_bob, tr).
Proof.
  destruct (removeContact_undoes_addContact Scenario.alice_bob
              "Carol" "555-9012" "carol@example.com")
    as (N & tr & HN & Hrun & _).
  - vm_compute. discriminate.
  - injection HN as <-. by exists tr.
Defined.

(** X7. Removing row 0 as many times as the Sequence has records ends
    on the empty model, just as [clear] does, but emits [countChanged]
    once per record where [clear] on a non-empty Sequence emits it
    once. *)
Theorem removing_every_row_clears s :
  exists tr,
    invoke_all (replicate (length (m_contacts s)) (RemoveContact 0)) s
    = Some (tt, ContactModel, tr) /\
    countChanged_emitted tr = length (m_contacts s) /\
    exists tr',
      clear s = Some (tt, ContactModel, tr') /\
      countChanged_emitted tr' = (if m_contacts s is [] then 0 else 1)%nat.
Proof.
  destruct s as [l]. cbn [m_contacts].
  assert (exists tr,
             invoke_all (replicate (length l) (RemoveContact 0))
               {| m_contacts := l |}
             = Some (tt, ContactModel, tr) /\
             countChanged_emitted tr = length l) as (tr & Hrun & Hn).
  { induction l as [|c l (t2 & H2 & Hn2)].
    - by exists [].
    - eexists. cbn [length replicate].
      erewrite invoke_all_cons.
      2:{ cbn [invoke]. apply removeContact_in_range.
          unfold QList.count. cbn [m_contacts length]. lia. }
      cbn [m_contacts]. change (delete (Z.to_nat 0) (c :: l)) with l.
      rewrite H2.
      split; [reflexivity|]. rewrite countChanged_emitted_app, Hn2. done. }
  exists tr. split; [done|]. split; [done|].
  destruct l as [|c l].
  - by exists [].
  - eexists. by rewrite clear_nonempty.
Qed.

(** X8. The model neither invents nor reorders records: after any
    sequence of calls, the Sequence is a subsequence of the old Sequence
    followed by the records handed to [addContact], in call order. *)
Theorem records_come_from_calls cs s :
  exists s' tr,
    invoke_all cs s = Some (tt, s', tr) /\
    m_contacts s' `sublist_of` m_contacts s ++ added cs.
Proof.
  revert s. induction cs as [|c cs IH]; intros s.
  - exists s, []. cbn. by rewrite app_nil_r.
  - assert (exists s1 t1,
               invoke c s = Some (tt, s1, t1) /\
               m_contacts s1 ++ added cs
               `sublist_of` m_contacts s ++ added (c :: cs))
      as (s1 & t1 & H1 & Hsub1).
    { invoke_cases c s; eexists _, _; (split; [reflexivity|]);
        cbn [m_contacts added]; try done.
      - by rewrite <- app_assoc.
      - apply sublist_app; [apply sublist_delete|done].
      - apply sublist_app; [apply sublist_nil_l|done]. }
    destruct (IH s1) as (s' & t2 & H2 & Hsub2).
    exists s', (t1 ++ t2). rewrite (invoke_all_cons _ _ _ _ _ H1), H2.
    split; [done|]. by etrans.
Qed.
End CallSequences.

(** ** The queries taken together *)

Section QueriesTogether.
Import ContactModel Protocol Scenario.
Implicit Types (s : state) (index parent : QModelIndex) (role : Z).

Lemma to_int_le z : 0 <= z -> to_int z <= z.
Proof.
  intros Hz. unfold to_int.
  pose proof (Z.mod_pos_bound (z + 2 ^ 31) (2 ^ 32) ltac:(lia)) as Hm.
  pose proof (Z.div_mod (z + 2 ^ 31) (2 ^ 32) ltac:(lia)) as Hd.
  assert (0 <= (z + 2 ^ 31) / 2 ^ 32) by (apply Z.div_pos; lia).
  lia.
Qed.

Lemma roleNames_lookup s role :
  exists table,
    eval roleNames s = Some table /\
    table !! role
    = if role =? Roles_value NameRole then Some "name"%string
      else if role =? Roles_value PhoneRole then Some "phone"%string
      else if role =? Roles_value EmailRole then Some "email"%string
      else None.
Proof.
  eexists. split; [reflexivity|]. cbn [Roles_value]. unfold UserRole.
  destruct (Z.eqb_spec role (256 + 1)) as [->|?]; [done|].
  destruct (Z.eqb_spec role (256 + 1 + 1)) as [->|?]; [done|].
  destruct (Z.eqb_spec role (256 + 1 + 1 + 1)) as [->|?]; [done|].
  by rewrite !lookup_insert_ne, lookup_empty by done.
Qed.

(** X9. [data] and [roleNames] agree on what each role means: for a
    valid index whose row is inside the Sequence, [data] returns the
    member of the record whose identifier [roleNames] gives for the
    role, and the invalid [QVariant] exactly for the roles [roleNames]
    has no entry for. *)
Theorem data_serves_roleNames s index role :
  isValid index = true ->
  row index < QList.count (m_contacts s) ->
  exists table c,
    eval roleNames s = Some table /\
    m_contacts s !! Z.to_nat (row index) = Some c /\
    eval (data index role) s
    = Some (match table !! role ≫= (fun key => Contact_member key c) with
            | Some text => QVariant_QString text
            | None => QVariant_invalid
            end) /\
    (eval (data index role) s = Some QVariant_invalid <-> table !! role = None).
Proof.
  intros Hv Hlt. pose proof (isValid_row_nonneg _ Hv) as H0.
  destruct (at_in_range (m_contacts s) (row index)) as (c & _ & Hc); [lia|].
  destruct (roleNames_lookup s role) as (table & Ht & Hl).
  exists table, c. split; [done|]. split; [done|].
  rewrite data_eval, Hv, Hc, Hl. unfold Contact_field.
  destruct (role =? Roles_value NameRole); [by split; [|split]|].
  destruct (role =? Roles_value PhoneRole); [by split; [|split]|].
  destruct (role =? Roles_value EmailRole); by split; [|split].
Qed.

Lemma data_serves_roleNames_witness :
  eval (data (at_row 1) (Roles_value EmailRole)) alice_bob
  = Some (QVariant_QString "bob@example.com").
Proof.
  destruct (data_serves_roleNames alice_bob (at_row 1) (Roles_value EmailRole))
    as (table & c & Ht & Hc & Hd & _).
  - reflexivity.
  - reflexivity.
  - injection Ht as <-. injection Hc as <-. exact Hd.
Defined.

(** X10. [rowCount] never promises a row that [data] cannot serve: on
    every object, also one too large for [int], and for every parent,
    each valid index whose row is below the returned count gets a string
    from [data] for each of the three roles. *)
Theorem rows_below_rowCount_have_data s parent n index (r : Roles) :
  eval (rowCount parent) s = Some n ->
  isValid index = true ->
  row index < n ->
  exists c,
    m_contacts s !! Z.to_nat (row index) = Some c /\
    eval (data index (Roles_value r)) s
    = Some (QVariant_QString
              (match r with
               | NameRole => name c
               | PhoneRole => phone c
               | EmailRole => email c
               end)).
Proof.
  intros Hn Hv Hlt. pose proof (isValid_row_nonneg _ Hv) as H0.
  assert (Hin : row index < QList.count (m_contacts s)).
  { unfold eval, rowCount in Hn. destruct (isValid parent).
    - injection Hn as <-. lia.
    - injection Hn as <-.
      pose proof (to_int_le _ (count_nonneg (m_contacts s))). lia. }
  destruct (at_in_range (m_contacts s) (row index)) as (c & _ & Hc); [lia|].
  exists c. split; [done|].
  rewrite data_eval, Hv, Hc. by destruct r.
Qed.

Lemma rows_below_rowCount_have_data_witness :
  exists c,
    m_contacts alice_bob !! Z.to_nat 1 = Some c /\
    eval (data (at_row 1) (Roles_value PhoneRole)) alice_bob
    = Some (QVariant_QString (phone c)).
Proof.
  apply (rows_below_rowCount_have_data alice_bob QModelIndex_root 2
           (at_row 1) PhoneRole); reflexivity.
Defined.
End QueriesTogether.

(** * Properties of the handlers of Main.qml *)

Section MainQmlHandlers.
Import ContactModel Protocol MainQml.
Implicit Types (s : state) (f : TextFields).

Lemma trimStart_blank (t : string) : blank t = true -> trimStart t = EmptyString.
Proof.
  induction t as [|c t IH]; simpl; [done|].
  intros [Hc Ht]%andb_prop. rewrite Hc. by apply IH.
Qed.

Lemma trimStart_visible (t : string) :
  blank t = false ->
  exists c t', trimStart t = String c t' /\ isWhiteSpace c = false.
Proof.
  induction t as [|c t IH]; simpl; [done|].
  destruct (isWhiteSpace c) eqn:Hc; simpl; [apply IH|]. intros _. by exists c, t.
Qed.

Lemma trimEnd_visible c (t : string) :
  isWhiteSpace c = false -> trimEnd (String c t) <> EmptyString.
Proof. intros Hc. simpl. rewrite Hc. by destruct (trimEnd t). Qed.

(** [trim] leaves nothing exactly of the strings without a visible
    character. *)
Lemma trim_empty_iff (t : string) : trim t = EmptyString <-> blank t = true.
Proof.
  unfold trim. split.
  - intros Ht. destruct (blank t) eqn:Hb; [done|].
    destruct (trimStart_visible t Hb) as (c & t' & Hs & Hc).
    rewrite Hs in Ht. by apply trimEnd_visible in Ht.
  - intros Hb. by rewrite trimStart_blank.
Qed.

Lemma guard_is_visible (t : string) :
  negb (String.eqb (trim t) "") = negb (blank t).
Proof.
  f_equal. destruct (String.eqb_spec (trim t) "") as [He|Hne].
  - symmetry. by apply trim_empty_iff.
  - destruct (blank t) eqn:Hb; [|done].
    exfalso. apply Hne. by apply trim_empty_iff.
Qed.

Lemma addContact_onClicked_blank f s :
  blank (nameField f) = true -> addContact_onClicked f s = Some (f, s, []).
Proof.
  intros Hb. unfold addContact_onClicked. by rewrite guard_is_visible, Hb.
Qed.

Lemma addContact_onClicked_visible f s :
  blank (nameField f) = false ->
  addContact_onClicked f s
  = Some ({| nameField := ""; phoneField := ""; emailField := "" |},
          {| m_contacts :=
               m_contacts s
               ++ [Build_Contact (nameField f) (phoneField f) (emailField f)] |},
          [Notify (BeginInsertRows QModelIndex_root
                     (to_int (QList.count (m_contacts s)))
                     (to_int (QList.count (m_contacts s)))) s;
           Mutate {| m_contacts :=
                       m_contacts s
                       ++ [Build_Contact (nameField f) (phoneField f)
                             (emailField f)] |};
           Notify EndInsertRows
             {| m_contacts :=
                  m_contacts s
                  ++ [Build_Contact (nameField f) (phoneField f)
                        (emailField f)] |};
           Notify CountChanged
             {| m_contacts :=
                  m_contacts s
                  ++ [Build_Contact (nameField f) (phoneField f)
                        (emailField f)] |}]).
Proof.
  intros Hb. unfold addContact_onClicked. rewrite guard_is_visible, Hb.
  cbn [negb]. run. by rewrite addContact_run.
Qed.



Lemma click_keeps_names_visible (c : Click) s :
  Forall (fun r => blank (name r) = false) (m_contacts s) ->
  exists s1 t1,
    click c s = Some (tt, s1, t1) /\
    Forall (fun r => blank (name r) = false) (m_contacts s1) /\
    steps Stable t1 = Some Stable.
Proof.
  intros Hs. destruct c as [f|i| |]; cbn [click].
  - destruct (blank (nameField f)) eqn:E.
    + exists s, []. run. by rewrite addContact_onClicked_blank.
    + eexists _, _. run. rewrite addContact_onClicked_visible by done.
      split; [reflexivity|]. cbn [m_contacts]. split; [|done].
      apply Forall_app. split; [done|]. by repeat constructor.
  - unfold delete_onClicked.
    destruct (Z.lt_ge_cases i 0);
      [|destruct (Z.le_gt_cases (QList.count (m_contacts s)) i)].
    + rewrite removeContact_out_of_range by lia. by exists s, [].
    + rewrite removeContact_out_of_range by lia. by exists s, [].
    + rewrite removeContact_in_range by lia. eexists _, _.
      split; [reflexivity|]. split; [|done]. by apply Forall_delete.
  - unfold clearAll_onClicked. destruct (decide (m_contacts s = [])).
    + rewrite clear_empty by done. by exists s, [].
    + rewrite clear_nonempty by done. eexists _, _.
      split; [reflexivity|]. by split; [constructor|].
  - eexists _, _. split; [reflexivity|]. cbn [m_contacts]. split; [|done].
    repeat (apply Forall_app; split); try done; by repeat constructor.
Qed.

Lemma clicks_keep_names_visible (cs : list Click) s :
  Forall (fun r => blank (name r) = false) (m_contacts s) ->
  exists s' tr,
    clicks cs s = Some (tt, s', tr) /\
    Forall (fun r => blank (name r) = false) (m_contacts s') /\
    steps Stable tr = Some Stable.
Proof.
  revert s. induction cs as [|c cs IH]; intros s Hs.
  - by exists s, [].
  - destruct (click_keeps_names_visible c s Hs) as (s1 & t1 & H1 & Hs1 & Hp1).
    destruct (IH s1 Hs1) as (s' & t2 & H2 & Hs2 & Hp2).
    exists s', (t1 ++ t2). cbn [clicks]. run. rewrite H1, H2.
    split; [done|]. split; [done|]. by rewrite steps_app, Hp1.
Qed.

End MainQmlHandlers.
